(** * Sized integer literals: the compile-time parser of SizedIntLiterals.h

    A shallow embedding of the constexpr functions and template
    instantiations of namespace [scw::intliterals], and the properties of
    the literal operators [_u8 ... _z] that follow from them.

    Conventions.
    - A [u64] is a [Z] in [0, 2^64); every unsigned operation of the source
      is followed by [wrap64], its reduction modulo 2^64.
    - A [char] is the integer value the character has after integral
      promotion (the source only subtracts and compares characters).
    - C++ [/] and [%] truncate towards zero: [Z.quot] and [Z.rem].
    - A template instantiation either yields a constant, or stops the
      compilation: by a [static_assert] with its message, or because an
      incomplete type is used. *)

From Equations Require Import Equations.
From Stdlib Require Import ZArith Bool Ascii String List Lia.
Import ListNotations.

Local Open Scope Z_scope.

(** ** Machine integers *)

Module U64.

Definition modulus : Z := 2 ^ 64.

(** Reduction of a mathematical integer into [std::uint64_t]. *)
Definition wrap64 (x : Z) : Z := x mod modulus.

(** The values a [u64] can hold. *)
Definition is_u64 (x : Z) : Prop := 0 <= x < modulus.

End U64.
Import U64.

(** ** detail::sqrOf, detail::powerOf *)

(** [constexpr u64 sqrOf(u64 value) { return value * value; }] *)
Definition sqrOf (value : Z) : Z := wrap64 (value * value).

(** [constexpr u64 powerOf(u64 value, u64 n)]:
    [n == 0 ? u64{1} : sqrOf(powerOf(value, n / 2u)) * u64{n % 2 == 0 ? 1 : value}].
    The recursion is on [n / 2], which is not a subterm of [n]: it is
    accepted because [|n / 2| < |n|] whenever [n <> 0]. *)
Equations? powerOf (value n : Z) : Z by wf (Z.abs_nat n) lt :=
  powerOf value n with Z.eq_dec n 0 => {
    | left _ := 1;
    | right _ :=
        wrap64 (sqrOf (powerOf value (Z.quot n 2))
                * (if Z.rem n 2 =? 0 then 1 else value)) }.
Proof.
  clear powerOf. Z.to_euclidean_division_equations. lia.
Qed.

(** ** Characters and detail::digitToValue *)

Definition char : Type := Z.

(** The value of a character constant of the basic source character set. *)
Definition ch (a : ascii) : char := Z.of_N (N_of_ascii a).

(** The template parameter pack [char... kDigits] of a literal. *)
Definition chars (s : string) : list char := map ch (list_ascii_of_string s).

(** [constexpr u64 digitToValue(char kDigit)]: the conditional expression is
    evaluated in [int], then converted by [static_cast<u64>]. *)
Definition digitToValue (kDigit : char) : Z :=
  wrap64 (if (kDigit >=? ch "0") && (kDigit <=? ch "9")
          then kDigit - ch "0"
          else if (kDigit >=? ch "a") && (kDigit <=? ch "f")
               then kDigit - ch "a" + 10
               else kDigit - ch "A" + 10).

(** ** Outcomes of a compile-time evaluation *)

Inductive Compile (A : Type) : Type :=
| Constant (a : A)
| static_assert_failed (message : string)
| incomplete_type.
Arguments Constant {A} a.
Arguments static_assert_failed {A} message.
Arguments incomplete_type {A}.

Definition bind {A B : Type} (c : Compile A) (k : A -> Compile B) : Compile B :=
  match c with
  | Constant a => k a
  | static_assert_failed message => static_assert_failed message
  | incomplete_type => incomplete_type
  end.

Notation "x <- c ;; k" := (bind c (fun x => k))
  (at level 61, c at next level, right associativity).

(** ** detail::ParseIntegerValue, detail::ParseBaseUnknown, detail::createValue *)

(** A specialization [ParseIntegerValue<kRadix, kDigits...>]. *)
Inductive Instantiation : Type :=
| ParseIntegerValue (kRadix : Z) (kDigits : list char).

(** [ParseIntegerValue<kRadix, kDigits...>::parse()].  The primary template
    is declared and never defined, so an empty pack names an incomplete
    type; one digit is the base case; the other specialization adds the
    weighted first digit to the value of the remaining ones. *)
Fixpoint ParseIntegerValue_parse (kRadix : Z) (digits : list char) : Compile Z :=
  match digits with
  | [] => incomplete_type
  | kDigit :: kDigits =>
      match kDigits with
      | [] => Constant (digitToValue kDigit)
      | _ :: _ =>
          rest <- ParseIntegerValue_parse kRadix kDigits ;;
          Constant (wrap64 (wrap64 (digitToValue kDigit
                                    * powerOf kRadix (Z.of_nat (length kDigits)))
                            + rest))
      end
  end.

Definition parse (T : Instantiation) : Compile Z :=
  match T with
  | ParseIntegerValue kRadix kDigits => ParseIntegerValue_parse kRadix kDigits
  end.

(** The base class of [ParseBaseUnknown<kDigits...>]: the most specialized
    partial specialization that matches the pack is the one chosen. *)
Definition ParseBaseUnknown (kDigits : list char) : Instantiation :=
  match kDigits with
  | c0 :: c1 :: rest =>
      if c0 =? ch "0" then
        if (c1 =? ch "b") || (c1 =? ch "B") then ParseIntegerValue 2 rest
        else if (c1 =? ch "x") || (c1 =? ch "X") then ParseIntegerValue 16 rest
        else ParseIntegerValue 8 (c1 :: rest)
      else ParseIntegerValue 10 kDigits
  | [c0] =>
      if c0 =? ch "0" then ParseIntegerValue 8 [] else ParseIntegerValue 10 kDigits
  | [] => ParseIntegerValue 10 kDigits
  end.

(** [std::conditional<(sizeof...(kDigits) > 1), ParseBaseUnknown<kDigits...>,
    ParseIntegerValue<10, kDigits...>>::type] *)
Definition conditional_type (kDigits : list char) : Instantiation :=
  if Z.of_nat (length kDigits) >? 1
  then ParseBaseUnknown kDigits
  else ParseIntegerValue 10 kDigits.

(** [template <char... kDigits> constexpr u64 createValue()] *)
Definition createValue (kDigits : list char) : Compile Z :=
  parse (conditional_type kDigits).

(** ** Target types *)

Inductive IntType : Type :=
| uint8_t | uint16_t | uint32_t | uint64_t
| int8_t | int16_t | int32_t | int64_t
| size_t.

Definition IntType_eq_dec (a b : IntType) : {a = b} + {a <> b}.
Proof. decide equality. Defined.

(** A constant together with its static type. *)
Record Typed : Type := { type_of : IntType; value_of : Z }.

Section Platform.

(** [std::numeric_limits<size_t>::digits]: [size_t] is the one target type
    whose width the header does not fix. *)
Variable size_t_digits : Z.

Definition is_signed (t : IntType) : bool :=
  match t with
  | int8_t | int16_t | int32_t | int64_t => true
  | _ => false
  end.

(** [std::numeric_limits<T>::digits], the number of value bits. *)
Definition numeric_limits_digits (t : IntType) : Z :=
  match t with
  | uint8_t => 8 | uint16_t => 16 | uint32_t => 32 | uint64_t => 64
  | int8_t => 7 | int16_t => 15 | int32_t => 31 | int64_t => 63
  | size_t => size_t_digits
  end.

Definition numeric_limits_max (t : IntType) : Z :=
  2 ^ numeric_limits_digits t - 1.

Definition numeric_limits_min (t : IntType) : Z :=
  if is_signed t then - 2 ^ numeric_limits_digits t else 0.

(** [static_cast<T>(v)] of an integer: reduction into the range of [T]. *)
Definition static_cast (t : IntType) (v : Z) : Z :=
  let m := 2 ^ numeric_limits_digits t in
  if is_signed t then (v + m) mod (2 * m) - m else v mod m.

(** The body that [SCW_DEFINE_CHECK_VALID_FUNC(typename_, errorMessage_)]
    gives [checkValid_typename_<kValue>()]. *)
Definition SCW_DEFINE_CHECK_VALID_FUNC
    (typename_ : IntType) (errorMessage_ : string) (kValue : Z) : Compile Z :=
  if kValue <=? numeric_limits_max typename_
  then Constant (static_cast typename_ kValue)
  else static_assert_failed errorMessage_.

(** The nine uses of the macro. *)
Definition errorMessage (t : IntType) : string :=
  match t with
  | uint8_t => "uint8 literal out of range."
  | uint16_t => "uint16 literal out of range."
  | uint32_t => "uint32 literal out of range."
  | uint64_t => "uint64 literal can't be out of range!"
  | int8_t => "int8 literal out of range. Note that the value of numeric_limits<int8>::min() is not supported"
  | int16_t => "int16 literal out of range. Note that the value of numeric_limits<int16>::min() is not supported"
  | int32_t => "int8 literal out of range. Note that the value of numeric_limits<int32>::min() is not supported"
  | int64_t => "int64 literal out of range. Note that the value of numeric_limits<int64>::min() is not supported"
  | size_t => "size_t literal out of range."
  end.

Definition checkValid (t : IntType) (kValue : Z) : Compile Z :=
  SCW_DEFINE_CHECK_VALID_FUNC t (errorMessage t) kValue.

(** ** The literal operators *)

Inductive Suffix : Type :=
| _u8 | _u16 | _u32 | _u64 | _i8 | _i16 | _i32 | _i64 | _z.

(** The body that [SCW_DEFINE_INTEGER_OPERATOR(typesuffix_, typename_)] gives
    [operator"" typesuffix_<digits...>()], whose return type is [typename_]. *)
Definition SCW_DEFINE_INTEGER_OPERATOR
    (typename_ : IntType) (digits : list char) : Compile Typed :=
  kValue <- createValue digits ;;
  v <- checkValid typename_ kValue ;;
  Constant {| type_of := typename_; value_of := v |}.

(** The nine uses of the macro. *)
Definition operator (typesuffix_ : Suffix) : list char -> Compile Typed :=
  match typesuffix_ with
  | _u8 => SCW_DEFINE_INTEGER_OPERATOR uint8_t
  | _u16 => SCW_DEFINE_INTEGER_OPERATOR uint16_t
  | _u32 => SCW_DEFINE_INTEGER_OPERATOR uint32_t
  | _u64 => SCW_DEFINE_INTEGER_OPERATOR uint64_t
  | _i8 => SCW_DEFINE_INTEGER_OPERATOR int8_t
  | _i16 => SCW_DEFINE_INTEGER_OPERATOR int16_t
  | _i32 => SCW_DEFINE_INTEGER_OPERATOR int32_t
  | _i64 => SCW_DEFINE_INTEGER_OPERATOR int64_t
  | _z => SCW_DEFINE_INTEGER_OPERATOR size_t
  end.

End Platform.

(** ** Reference definitions, written from the specification *)

(** The type each suffix asks for. *)
Definition requested_type (s : Suffix) : IntType :=
  match s with
  | _u8 => uint8_t | _u16 => uint16_t | _u32 => uint32_t | _u64 => uint64_t
  | _i8 => int8_t | _i16 => int16_t | _i32 => int32_t | _i64 => int64_t
  | _z => size_t
  end.

(** The width in bits of the type a signed suffix asks for. *)
Definition signed_suffix_bits (s : Suffix) : option Z :=
  match s with
  | _i8 => Some 8 | _i16 => Some 16 | _i32 => Some 32 | _i64 => Some 64
  | _ => None
  end.

(** The naive power: [k] multiplications by [v], in unbounded integers. *)
Fixpoint naive_power (v : Z) (k : nat) : Z :=
  match k with
  | O => 1
  | S k' => v * naive_power v k'
  end.

(** The same [k] multiplications, each one a [u64] multiplication. *)
Fixpoint naive_power_u64 (v : Z) (k : nat) : Z :=
  match k with
  | O => 1
  | S k' => wrap64 (v * naive_power_u64 v k')
  end.

(** The positional accumulation [Sum_i digitToValue(d_i) * r^(n-1-i)] of the
    digits [d_0 ... d_(n-1)], in unbounded integers. *)
Definition positional_sum (r : Z) (d : list char) : Z :=
  let n := length d in
  fold_right Z.add 0
    (map (fun i => digitToValue (nth i d 0) * r ^ Z.of_nat (n - 1 - i))
         (seq 0 n)).

(** The same sum with every power, product and addition made in [u64]. *)
Definition positional_sum_u64 (r : Z) (d : list char) : Z :=
  let n := length d in
  fold_right (fun x acc => wrap64 (x + acc)) 0
    (map (fun i => wrap64 (digitToValue (nth i d 0) * naive_power_u64 r (n - 1 - i)))
         (seq 0 n)).

(** [strip_prefix p cs] is what follows the prefix [p] in [cs]. *)
Fixpoint strip_prefix (p cs : list char) : option (list char) :=
  match p, cs with
  | [], _ => Some cs
  | _ :: _, [] => None
  | a :: p', c :: cs' => if a =? c then strip_prefix p' cs' else None
  end.

Definition first_some {A : Type} (a b : option A) : option A :=
  match a with Some _ => a | None => b end.

(** The base-detection rules: prefix [0b]/[0B] is binary, [0x]/[0X] is
    hexadecimal, prefix [0] is octal, anything else is decimal.  The result
    is the base and the digits, which are what follows the prefix. *)
Definition prefix_base (cs : list char) : Z * list char :=
  match first_some (strip_prefix (chars "0b") cs) (strip_prefix (chars "0B") cs) with
  | Some ds => (2, ds)
  | None =>
      match first_some (strip_prefix (chars "0x") cs) (strip_prefix (chars "0X") cs) with
      | Some ds => (16, ds)
      | None =>
          match strip_prefix (chars "0") cs with
          | Some ds => (8, ds)
          | None => (10, cs)
          end
      end
  end.

(** The instantiation the base-detection rules describe. *)
Definition prefix_instantiation (cs : list char) : Instantiation :=
  let (base, ds) := prefix_base cs in ParseIntegerValue base ds.

(** The value the language gives a digit character: its place in the
    alphabet [0-9], [a-f], [A-F]. *)
Definition digit_alphabet : list (char * Z) :=
  combine (chars "0123456789abcdefABCDEF")
          [0; 1; 2; 3; 4; 5; 6; 7; 8; 9; 10; 11; 12; 13; 14; 15; 10; 11; 12; 13; 14; 15].

(** A digit of base [base]: in the alphabet, and smaller than the base. *)
Definition std_digit (base : Z) (c : char) : option Z :=
  match find (fun e => fst e =? c) digit_alphabet with
  | Some (_, d) => if d <? base then Some d else None
  | None => None
  end.

(** Reading digits left to right, in unbounded integers. *)
Fixpoint std_number (base acc : Z) (cs : list char) : option Z :=
  match cs with
  | [] => Some acc
  | c :: cs' =>
      match std_digit base c with
      | Some d => std_number base (acc * base + d) cs'
      | None => None
      end
  end.

(** The value of an integer literal of the language in binary, octal,
    decimal or hexadecimal form, as the specification has it: digits and an
    optional base prefix.  A prefix [0b], [0B], [0x] or [0X] needs a digit
    after it, [0] alone is the octal literal zero, and every digit is one of
    the base.  Digit separators are not part of these forms. *)
Definition std_literal (cs : list char) : option Z :=
  match prefix_base cs with
  | (base, []) => if (base =? 8) then Some 0 else None
  | (base, ds) => std_number base 0 ds
  end.

(** ** The self-test harness, TestMain.cpp *)

(** One check of the harness: the constant has the value of the plain
    literal ([static_assert(x == ...)]) and the type of the suffix
    ([std::is_same]). *)
Definition harness_check (size_t_digits : Z) (s : Suffix) (literal : string) : bool :=
  match std_literal (chars literal), operator size_t_digits s (chars literal) with
  | Some V, Constant c =>
      (value_of c =? V)
      && (if IntType_eq_dec (type_of c) (requested_type s) then true else false)
  | _, _ => false
  end.

(** The literals of [main] that compile. *)
Definition harness_cases : list (Suffix * string) :=
  [ (_u64, "0b101"); (_u64, "0101"); (_u64, "101"); (_u64, "0xfeF1");
    (_u32, "0b101"); (_u32, "0101"); (_u32, "101"); (_u32, "0xfeF1");
    (_i64, "0b101"); (_i64, "0101"); (_i64, "101"); (_i64, "0xfeF1");
    (_i32, "0b101"); (_i32, "0101"); (_i32, "101"); (_i32, "0xfeF1");
    (_z, "0b101"); (_z, "0101"); (_z, "101"); (_z, "0xfeF1");
    (_u8, "100"); (_u16, "100");
    (_i32, "0b1110101"); (_u64, "0xffeeffdd0012345"); (_u32, "07766554433") ]%string.

(** The literals of [main] that are commented out, as they must not compile. *)
Definition harness_rejected : list (Suffix * string) :=
  [ (_u8, "0b111111111"); (_u8, "111111"); (_u8, "257"); (_u8, "0xff01");
    (_u32, "0xffff12345") ]%string.

Definition is_static_assert {A : Type} (c : Compile A) : bool :=
  match c with static_assert_failed _ => true | _ => false end.

(** Replaces every character constant by its code. *)
Ltac char_codes :=
  repeat match goal with
         | |- context [ch ?a] =>
             let v := eval vm_compute in (ch a) in change (ch a) with v
         end.

(** * Properties *)

(** ** Arithmetic modulo 2^64 *)

Lemma modulus_pos : 0 < modulus.
Proof. reflexivity. Qed.

Lemma wrap64_range (x : Z) : is_u64 (wrap64 x).
Proof. apply Z.mod_pos_bound, modulus_pos. Qed.

Lemma wrap64_small (x : Z) : is_u64 x -> wrap64 x = x.
Proof. intros H. apply Z.mod_small, H. Qed.

Lemma wrap64_idem (x : Z) : wrap64 (wrap64 x) = wrap64 x.
Proof. apply wrap64_small, wrap64_range. Qed.

Lemma wrap64_mul_l (x y : Z) : wrap64 (wrap64 x * y) = wrap64 (x * y).
Proof. apply Z.mul_mod_idemp_l. discriminate. Qed.

Lemma wrap64_mul_r (x y : Z) : wrap64 (x * wrap64 y) = wrap64 (x * y).
Proof. apply Z.mul_mod_idemp_r. discriminate. Qed.

Lemma wrap64_add_l (x y : Z) : wrap64 (wrap64 x + y) = wrap64 (x + y).
Proof. apply Z.add_mod_idemp_l. discriminate. Qed.

Lemma wrap64_add_r (x y : Z) : wrap64 (x + wrap64 y) = wrap64 (x + y).
Proof. apply Z.add_mod_idemp_r. discriminate. Qed.

Create Rewrite HintDb wrap64.
#[local] Hint Rewrite wrap64_idem wrap64_mul_l wrap64_mul_r
  wrap64_add_l wrap64_add_r : wrap64.

(** ** powerOf *)

(** The source line of [powerOf], as an equation of the model. *)
Lemma powerOf_source (value n : Z) :
  powerOf value n =
  if n =? 0 then 1
  else wrap64 (sqrOf (powerOf value (Z.quot n 2))
               * (if Z.rem n 2 =? 0 then 1 else value)).
Proof.
  rewrite powerOf_equation_1.
  destruct (Z.eq_dec n 0) as [->|Hn]; simpl.
  - reflexivity.
  - apply Z.eqb_neq in Hn. rewrite Hn. reflexivity.
Qed.

(** Halving a non-zero [u64] exponent gives a smaller one. *)
Lemma half_decreases (n : Z) : 0 <= n -> n <> 0 -> 0 <= Z.quot n 2 < n.
Proof. intros H0 Hn. Z.to_euclidean_division_equations. lia. Qed.

Lemma powerOf_pow (value n : Z) :
  0 <= n -> powerOf value n = wrap64 (value ^ n).
Proof.
  intros Hn. revert value.
  refine (Zlt_0_ind (fun n => forall value, powerOf value n = wrap64 (value ^ n)) _ n Hn).
  clear n Hn. intros n IH Hn value.
  rewrite powerOf_source.
  destruct (Z.eqb_spec n 0) as [->|Hne]; [reflexivity|].
  pose proof (half_decreases n Hn Hne) as Hhalf.
  rewrite (IH (Z.quot n 2)) by lia.
  unfold sqrOf. autorewrite with wrap64.
  assert (Hsplit : n = 2 * Z.quot n 2 + Z.rem n 2) by apply Z.quot_rem'.
  assert (Hrem : Z.rem n 2 = 0 \/ Z.rem n 2 = 1)
    by (Z.to_euclidean_division_equations; lia).
  destruct Hhalf as [Hq _]. clear IH Hne Hn.
  generalize dependent (Z.quot n 2). generalize dependent (Z.rem n 2).
  intros r Hr q Hq ->.
  rewrite <- Z.mul_assoc, wrap64_mul_l, Z.mul_assoc.
  rewrite Z.pow_add_r, Z.pow_twice_r by lia.
  destruct Hr as [-> | ->]; simpl (_ =? _); cbv iota.
  - rewrite Z.pow_0_r. reflexivity.
  - rewrite Z.pow_1_r. reflexivity.
Qed.

Lemma naive_power_pow (v : Z) (k : nat) : naive_power v k = v ^ Z.of_nat k.
Proof.
  induction k as [|k IH].
  - reflexivity.
  - rewrite Nat2Z.inj_succ, Z.pow_succ_r by lia. simpl. now rewrite IH.
Qed.

Lemma naive_power_u64_pow (v : Z) (k : nat) :
  naive_power_u64 v k = wrap64 (v ^ Z.of_nat k).
Proof.
  induction k as [|k IH].
  - reflexivity.
  - rewrite Nat2Z.inj_succ, Z.pow_succ_r by lia. cbn [naive_power_u64].
    now rewrite IH, wrap64_mul_r.
Qed.

Lemma powerOf_range (value n : Z) : is_u64 (powerOf value n).
Proof.
  rewrite powerOf_source. destruct (n =? 0).
  - vm_compute. split; [discriminate | reflexivity].
  - apply wrap64_range.
Qed.

(** ** digitToValue *)

Lemma digitToValue_range (c : char) : is_u64 (digitToValue c).
Proof. apply wrap64_range. Qed.

Lemma digitToValue_decimal (c : char) :
  ch "0" <= c <= ch "9" -> digitToValue c = c - ch "0".
Proof.
  unfold digitToValue. char_codes. intros H.
  replace ((c >=? 48) && (c <=? 57)) with true by lia.
  apply wrap64_small. unfold is_u64, modulus. lia.
Qed.

Lemma digitToValue_lower (c : char) :
  ch "a" <= c <= ch "f" -> digitToValue c = c - ch "a" + 10.
Proof.
  unfold digitToValue. char_codes. intros H.
  replace ((c >=? 48) && (c <=? 57)) with false by lia.
  replace ((c >=? 97) && (c <=? 102)) with true by lia.
  apply wrap64_small. unfold is_u64, modulus. lia.
Qed.

Lemma digitToValue_upper (c : char) :
  ch "A" <= c <= ch "F" -> digitToValue c = c - ch "A" + 10.
Proof.
  unfold digitToValue. char_codes. intros H.
  replace ((c >=? 48) && (c <=? 57)) with false by lia.
  replace ((c >=? 97) && (c <=? 102)) with false by lia.
  apply wrap64_small. unfold is_u64, modulus. lia.
Qed.

(** Outside the alphabet the third branch is taken all the same: the digit
    separator ['] of C++14, which a literal operator template receives with
    the digits, counts as [39 - 'A' + 10 = -16], converted to [u64]. *)
Example digit_separator_read_as_digit :
  digitToValue (ch "'") = 2 ^ 64 - 16 /\
  std_literal (chars "1'000") = None /\
  createValue (chars "1'000") = Constant (2 ^ 64 - 6000).
Proof. repeat apply conj; vm_compute; reflexivity. Qed.

(** On the digits of the language, the code agrees with the alphabet. *)
Lemma digitToValue_std (base : Z) (c : char) (d : Z) :
  std_digit base c = Some d -> digitToValue c = d /\ 0 <= d < base.
Proof.
  unfold std_digit, digit_alphabet.
  cbn [chars list_ascii_of_string map combine find fst].
  repeat match goal with
         | |- context [ch ?a =? c] =>
             destruct (Z.eqb_spec (ch a) c) as [<- | _];
             [ cbv iota beta;
               match goal with
               | |- context [?v <? base] => destruct (Z.ltb_spec v base)
               end; [|discriminate];
               intros [= <-]; split; [vm_compute; reflexivity | lia] | ]
         end.
  discriminate.
Qed.

(** ** ParseIntegerValue *)

Lemma positional_sum_nil (r : Z) : positional_sum r [] = 0.
Proof. reflexivity. Qed.

(** The first digit weighs [r^(n-1)]; the others keep their weights. *)
Lemma positional_sum_cons (r : Z) (c : char) (ds : list char) :
  positional_sum r (c :: ds) =
  digitToValue c * r ^ Z.of_nat (length ds) + positional_sum r ds.
Proof.
  unfold positional_sum.
  cbn [length seq map fold_right nth].
  f_equal.
  - do 3 f_equal. lia.
  - rewrite <- seq_shift, map_map. f_equal.
    apply map_ext_in. intros i Hi. apply in_seq in Hi.
    do 3 f_equal. lia.
Qed.

Lemma fold_right_wrap64 (f : nat -> Z) (l : list nat) :
  fold_right (fun x acc => wrap64 (x + acc)) 0 (map (fun i => wrap64 (f i)) l) =
  wrap64 (fold_right Z.add 0 (map f l)).
Proof.
  induction l as [|i l IH].
  - reflexivity.
  - cbn [map fold_right]. now rewrite IH, wrap64_add_l, wrap64_add_r.
Qed.

(** Wrapping at every step or once at the end is the same. *)
Lemma positional_sum_u64_wrap (r : Z) (d : list char) :
  positional_sum_u64 r d = wrap64 (positional_sum r d).
Proof.
  unfold positional_sum_u64, positional_sum.
  rewrite <- fold_right_wrap64. f_equal.
  apply map_ext. intros i. now rewrite naive_power_u64_pow, wrap64_mul_r.
Qed.

Lemma parse_cons (kRadix : Z) (c0 c1 : char) (ds : list char) :
  ParseIntegerValue_parse kRadix (c0 :: c1 :: ds) =
  rest <- ParseIntegerValue_parse kRadix (c1 :: ds) ;;
  Constant (wrap64 (wrap64 (digitToValue c0
                            * powerOf kRadix (Z.of_nat (length (c1 :: ds))))
                    + rest)).
Proof. reflexivity. Qed.

(** Every non-empty pack parses, to the wrapped positional sum. *)
Lemma parse_positional (kRadix : Z) (ds : list char) :
  ds <> [] ->
  ParseIntegerValue_parse kRadix ds = Constant (wrap64 (positional_sum kRadix ds)).
Proof.
  induction ds as [|c0 [|c1 ds] IH]; intros Hne.
  - contradiction.
  - cbn [ParseIntegerValue_parse]. rewrite positional_sum_cons, positional_sum_nil.
    cbn [length Z.of_nat]. rewrite Z.pow_0_r, Z.mul_1_r, Z.add_0_r.
    now rewrite wrap64_small by apply digitToValue_range.
  - rewrite parse_cons, IH by discriminate. cbn [bind].
    rewrite powerOf_pow by lia.
    rewrite (positional_sum_cons kRadix c0).
    now rewrite wrap64_mul_r, wrap64_add_l, wrap64_add_r.
Qed.

Lemma parse_range (kRadix : Z) (ds : list char) (v : Z) :
  ParseIntegerValue_parse kRadix ds = Constant v -> is_u64 v.
Proof.
  destruct ds as [|c ds]; [discriminate|].
  rewrite parse_positional by discriminate.
  intros [= <-]. apply wrap64_range.
Qed.

(** Left-to-right reading and positional weights give the same number. *)
Lemma std_number_positional (base : Z) (ds : list char) :
  forall acc V,
    std_number base acc ds = Some V ->
    V = acc * base ^ Z.of_nat (length ds) + positional_sum base ds.
Proof.
  induction ds as [|c ds IH]; intros acc V.
  - cbn. intros [= <-]. lia.
  - cbn [std_number]. destruct (std_digit base c) as [d|] eqn:Hd; [|discriminate].
    apply digitToValue_std in Hd. destruct Hd as [Hd _].
    intros HV. apply IH in HV. rewrite HV, positional_sum_cons, Hd.
    cbn [length]. rewrite Nat2Z.inj_succ, Z.pow_succ_r by lia. ring.
Qed.

Lemma std_number_nonneg (base : Z) (ds : list char) :
  forall acc V, 0 <= base -> 0 <= acc -> std_number base acc ds = Some V -> 0 <= V.
Proof.
  induction ds as [|c ds IH]; intros acc V Hb Hacc.
  - cbn. intros [= <-]. exact Hacc.
  - cbn [std_number]. destruct (std_digit base c) as [d|] eqn:Hd; [|discriminate].
    apply digitToValue_std in Hd. apply IH; nia.
Qed.

(** ** Base detection *)

(** On two characters or more, the partial specializations of
    [ParseBaseUnknown] implement the prefix rules. *)
Lemma ParseBaseUnknown_prefix (c0 c1 : char) (rest : list char) :
  ParseBaseUnknown (c0 :: c1 :: rest) = prefix_instantiation (c0 :: c1 :: rest).
Proof.
  unfold prefix_instantiation, prefix_base, ParseBaseUnknown.
  cbn [chars list_ascii_of_string map strip_prefix].
  rewrite (Z.eqb_sym c0), !(Z.eqb_sym c1).
  destruct (ch "0" =? c0); [|reflexivity].
  destruct (ch "b" =? c1); [reflexivity|].
  destruct (ch "B" =? c1); [reflexivity|].
  destruct (ch "x" =? c1); [reflexivity|].
  destruct (ch "X" =? c1); reflexivity.
Qed.

Lemma conditional_type_long (cs : list char) :
  (1 < length cs)%nat -> conditional_type cs = prefix_instantiation cs.
Proof.
  destruct cs as [|c0 [|c1 rest]]; cbn [length]; try lia.
  intros _. unfold conditional_type.
  replace (Z.of_nat (length (c0 :: c1 :: rest)) >? 1) with true
    by (symmetry; rewrite Z.gtb_ltb; apply Z.ltb_lt; cbn [length]; lia).
  apply ParseBaseUnknown_prefix.
Qed.

Lemma conditional_type_short (cs : list char) :
  (length cs <= 1)%nat -> conditional_type cs = ParseIntegerValue 10 cs.
Proof.
  intros H. unfold conditional_type.
  replace (Z.of_nat (length cs) >? 1) with false
    by (symmetry; rewrite Z.gtb_ltb; apply Z.ltb_ge; lia).
  reflexivity.
Qed.

(** ** createValue on the literals of the language *)

Lemma createValue_range (cs : list char) (v : Z) :
  createValue cs = Constant v -> is_u64 v.
Proof.
  unfold createValue. destruct (conditional_type cs) as [r ds].
  apply parse_range.
Qed.

(** The digits of a literal, read in the literal's base. *)
Lemma parse_std_number (base : Z) (ds : list char) (V : Z) :
  0 <= base -> ds <> [] ->
  std_number base 0 ds = Some V ->
  ParseIntegerValue_parse base ds = Constant (wrap64 V) /\ 0 <= V.
Proof.
  intros Hb Hne HV. split.
  - rewrite parse_positional by exact Hne.
    apply std_number_positional in HV. rewrite HV. reflexivity.
  - apply std_number_nonneg in HV; lia.
Qed.

(** A literal of the language always parses, to its value modulo 2^64. *)
Lemma createValue_std_literal (cs : list char) (V : Z) :
  std_literal cs = Some V ->
  createValue cs = Constant (wrap64 V) /\ 0 <= V.
Proof.
  unfold createValue, std_literal.
  destruct cs as [|c0 [|c1 rest]].
  - discriminate.
  - rewrite conditional_type_short by (cbn; lia).
    unfold prefix_base. cbn [chars list_ascii_of_string map strip_prefix parse].
    destruct (Z.eqb_spec (ch "0") c0) as [<- | _]; cbn [first_some].
    + intros [= <-]. split; [reflexivity | lia].
    + apply parse_std_number; [lia | discriminate].
  - rewrite conditional_type_long by (cbn; lia).
    unfold prefix_instantiation, prefix_base.
    cbn [chars list_ascii_of_string map strip_prefix].
    destruct (ch "0" =? c0); cbn [first_some parse];
      [|apply parse_std_number; [lia | discriminate]].
    destruct (ch "b" =? c1); cbn [first_some parse];
      [destruct rest; [discriminate | apply parse_std_number; [lia | discriminate]]|].
    destruct (ch "B" =? c1); cbn [first_some parse];
      [destruct rest; [discriminate | apply parse_std_number; [lia | discriminate]]|].
    destruct (ch "x" =? c1); cbn [first_some parse];
      [destruct rest; [discriminate | apply parse_std_number; [lia | discriminate]]|].
    destruct (ch "X" =? c1); cbn [first_some parse];
      [destruct rest; [discriminate | apply parse_std_number; [lia | discriminate]]|].
    apply parse_std_number; [lia | discriminate].
Qed.

(** ** Range check and literal operators *)

Lemma operator_requested (size_t_digits : Z) (s : Suffix) (cs : list char) :
  operator size_t_digits s cs =
  SCW_DEFINE_INTEGER_OPERATOR size_t_digits (requested_type s) cs.
Proof. destruct s; reflexivity. Qed.

Lemma numeric_limits_max_nonneg (size_t_digits : Z) (t : IntType) :
  0 <= size_t_digits -> 0 <= numeric_limits_max size_t_digits t.
Proof.
  intros H. unfold numeric_limits_max.
  assert (0 < 2 ^ numeric_limits_digits size_t_digits t); [|lia].
  apply Z.pow_pos_nonneg; [lia | destruct t; cbn; lia].
Qed.

Lemma numeric_limits_max_u64 (size_t_digits : Z) (t : IntType) :
  size_t_digits <= 64 -> numeric_limits_max size_t_digits t < modulus.
Proof.
  intros H. unfold numeric_limits_max, modulus.
  assert (2 ^ numeric_limits_digits size_t_digits t <= 2 ^ 64); [|lia].
  apply Z.pow_le_mono_r; [lia | destruct t; cbn; lia].
Qed.

(** Within the range of the target type the cast changes nothing. *)
Lemma static_cast_in_range (size_t_digits : Z) (t : IntType) (k : Z) :
  0 <= k <= numeric_limits_max size_t_digits t ->
  static_cast size_t_digits t k = k.
Proof.
  unfold static_cast, numeric_limits_max. intros H.
  destruct (is_signed t).
  - rewrite Z.mod_small; lia.
  - apply Z.mod_small. lia.
Qed.

(** What a literal operator does once the digits have been parsed. *)
Lemma operator_outcome (size_t_digits : Z) (s : Suffix) (cs : list char) (k : Z) :
  createValue cs = Constant k ->
  operator size_t_digits s cs =
  if k <=? numeric_limits_max size_t_digits (requested_type s)
  then Constant {| type_of := requested_type s; value_of := k |}
  else static_assert_failed (errorMessage (requested_type s)).
Proof.
  intros Hk. rewrite operator_requested.
  unfold SCW_DEFINE_INTEGER_OPERATOR, checkValid, SCW_DEFINE_CHECK_VALID_FUNC.
  rewrite Hk. cbn [bind].
  destruct (Z.leb_spec k (numeric_limits_max size_t_digits (requested_type s)))
    as [Hle | Hgt]; cbn [bind]; [|reflexivity].
  rewrite static_cast_in_range; [reflexivity|].
  apply createValue_range in Hk. unfold is_u64 in Hk. lia.
Qed.

(** Parsing itself never trips a [static_assert]. *)
Lemma createValue_no_static_assert (cs : list char) (message : string) :
  createValue cs <> static_assert_failed message.
Proof.
  unfold createValue. destruct (conditional_type cs) as [r [|c ds]]; cbn [parse].
  - discriminate.
  - rewrite parse_positional; discriminate.
Qed.

(** The outcome of a literal operator on a literal of the language: the
    range check is made on the value modulo 2^64, and nothing else fails. *)
Lemma operator_std_literal
    (size_t_digits : Z) (s : Suffix) (cs : list char) (V : Z) :
  std_literal cs = Some V ->
  operator size_t_digits s cs =
  if wrap64 V <=? numeric_limits_max size_t_digits (requested_type s)
  then Constant {| type_of := requested_type s; value_of := wrap64 V |}
  else static_assert_failed (errorMessage (requested_type s)).
Proof.
  intros HV. apply createValue_std_literal in HV as [HV _].
  now apply operator_outcome.
Qed.

(** * The harness *)

(** Every [static_assert] of TestMain.cpp holds in the model, with a
    [size_t] of 32 and of 64 bits. *)
Example TestMain_compiles :
  forallb (fun c => harness_check 32 (fst c) (snd c)) harness_cases = true /\
  forallb (fun c => harness_check 64 (fst c) (snd c)) harness_cases = true.
Proof. split; vm_compute; reflexivity. Qed.

(** The five lines it keeps commented out are rejected by the range check. *)
Example TestMain_rejected :
  forallb (fun c => is_static_assert (operator 64 (fst c) (chars (snd c))))
          harness_rejected = true.
Proof. vm_compute. reflexivity. Qed.

(** * The claims *)

(** C1: for every literal of the language in binary, octal, decimal or
    hexadecimal form whose value [V] is representable in the type a suffix
    asks for, and for each of the nine suffixes, the literal operator
    compiles to a constant whose value is [V], the value the language gives
    the literal, and whose type is exactly the requested type.  [size_t] is
    taken to be at most 64 bits wide. *)
Theorem literal_operator_correct
    (size_t_digits : Z) (s : Suffix) (cs : list char) (V : Z) :
  size_t_digits <= 64 ->
  std_literal cs = Some V ->
  V <= numeric_limits_max size_t_digits (requested_type s) ->
  operator size_t_digits s cs =
  Constant {| type_of := requested_type s; value_of := V |}.
Proof.
  intros Hsz HV Hmax.
  rewrite (operator_std_literal size_t_digits s cs V HV).
  apply createValue_std_literal in HV as [_ H0].
  pose proof (numeric_limits_max_u64 size_t_digits (requested_type s)) as Hlt.
  rewrite wrap64_small by (unfold is_u64; lia).
  destruct (Z.leb_spec V (numeric_limits_max size_t_digits (requested_type s)));
    [reflexivity | lia].
Qed.

Lemma literal_operator_correct_witness :
  64 <= 64 /\
  std_literal (chars "0xfeF1") = Some 65265 /\
  65265 <= numeric_limits_max 64 (requested_type _u16) /\
  operator 64 _u16 (chars "0xfeF1") =
  Constant {| type_of := uint16_t; value_of := 65265 |}.
Proof.
  assert (H1 : 64 <= 64) by lia.
  assert (H2 : std_literal (chars "0xfeF1") = Some 65265) by reflexivity.
  assert (H3 : 65265 <= numeric_limits_max 64 (requested_type _u16))
    by (vm_compute; discriminate).
  exact (conj H1 (conj H2 (conj H3
           (literal_operator_correct 64 _u16 (chars "0xfeF1") 65265 H1 H2 H3)))).
Defined.

(** C2, evaluated where it fails: the decimal literal 18446744073709551616
    has the value 2^64, far above the maximum 255 of the 8-bit unsigned type,
    and yet the [_u8] operator compiles it, to the constant 0. *)
Theorem overflowing_literal_compiles (size_t_digits : Z) :
  std_literal (chars "18446744073709551616") = Some (2 ^ 64) /\
  numeric_limits_max size_t_digits uint8_t = 255 /\
  operator size_t_digits _u8 (chars "18446744073709551616") =
  Constant {| type_of := uint8_t; value_of := 0 |}.
Proof. repeat apply conj; vm_compute; reflexivity. Qed.

(** C3 as stated fails on the one-character literal [0]: the prefix rules
    make it octal with no digit left, the code hands it to the base-10
    parser with [0] as its digit. *)
Lemma single_zero_parsed_as_decimal :
  prefix_instantiation (chars "0") = ParseIntegerValue 8 [] /\
  conditional_type (chars "0") = ParseIntegerValue 10 (chars "0") /\
  conditional_type (chars "0") <> prefix_instantiation (chars "0").
Proof.
  split; [vm_compute; reflexivity|].
  split; [vm_compute; reflexivity|].
  vm_compute. discriminate.
Qed.

(** C3, amended: for every character sequence of two characters or more the
    base is determined from the prefix ([0b]/[0B] binary, [0x]/[0X]
    hexadecimal, [0] octal, otherwise decimal) and the prefix characters are
    not among the digits parsed; a sequence of fewer than two characters is
    parsed as decimal, all its characters being digits. *)
Theorem base_detection (cs : list char) :
  conditional_type cs =
    (if (1 <? length cs)%nat then prefix_instantiation cs
     else ParseIntegerValue 10 cs) /\
  createValue cs =
    parse (if (1 <? length cs)%nat then prefix_instantiation cs
           else ParseIntegerValue 10 cs).
Proof.
  assert (H : conditional_type cs =
              if (1 <? length cs)%nat then prefix_instantiation cs
              else ParseIntegerValue 10 cs).
  { destruct (Nat.ltb_spec 1 (length cs)).
    - now apply conditional_type_long.
    - now apply conditional_type_short. }
  split; [exact H|]. unfold createValue. now rewrite H.
Qed.

(** C4: for every radix [r] and every non-empty digit sequence
    [d_0 ... d_(n-1)], [ParseIntegerValue<r, d_0, ..., d_(n-1)>::parse()] is
    the positional sum [Sum_i digitToValue(d_i) * r^(n-1-i)] computed in
    64-bit unsigned arithmetic, which is the sum in unbounded integers
    reduced modulo 2^64. *)
Theorem ParseIntegerValue_positional (r : Z) (d : list char) :
  is_u64 r -> d <> [] ->
  parse (ParseIntegerValue r d) = Constant (positional_sum_u64 r d) /\
  positional_sum_u64 r d = wrap64 (positional_sum r d).
Proof.
  intros _ Hd. split; [|apply positional_sum_u64_wrap].
  cbn [parse]. rewrite positional_sum_u64_wrap. now apply parse_positional.
Qed.

Lemma ParseIntegerValue_positional_witness :
  is_u64 16 /\ chars "fF01" <> [] /\
  parse (ParseIntegerValue 16 (chars "fF01")) =
    Constant (positional_sum_u64 16 (chars "fF01")) /\
  positional_sum_u64 16 (chars "fF01") = wrap64 (positional_sum 16 (chars "fF01")).
Proof.
  assert (H1 : is_u64 16) by (unfold is_u64, modulus; lia).
  assert (H2 : chars "fF01" <> []) by discriminate.
  exact (conj H1 (conj H2 (ParseIntegerValue_positional 16 (chars "fF01") H1 H2))).
Defined.

(** C5: the accumulation is carried out in one unsigned 64-bit accumulator
    that wraps around.  A literal of the language is never rejected while
    its digits are accumulated, whatever its size: [createValue] yields its
    value reduced modulo 2^64.  So for each of the nine target types there
    is a literal of value 2^64 or more that passes the range check. *)
Theorem accumulator_wraps_around (size_t_digits : Z) :
  0 <= size_t_digits ->
  (forall cs V, std_literal cs = Some V ->
                createValue cs = Constant (V mod 2 ^ 64)) /\
  (forall s, exists cs V,
      std_literal cs = Some V /\ 2 ^ 64 <= V /\
      operator size_t_digits s cs =
      Constant {| type_of := requested_type s; value_of := V mod 2 ^ 64 |}).
Proof.
  intros Hsz. split.
  - intros cs V HV. now apply createValue_std_literal in HV as [HV _].
  - intros s. exists (chars "18446744073709551616"), (2 ^ 64).
    assert (HV : std_literal (chars "18446744073709551616") = Some (2 ^ 64))
      by reflexivity.
    split; [exact HV|]. split; [apply Z.le_refl|].
    rewrite (operator_std_literal size_t_digits s _ _ HV).
    change (wrap64 (2 ^ 64)) with 0. change (2 ^ 64 mod 2 ^ 64) with 0.
    pose proof (numeric_limits_max_nonneg size_t_digits (requested_type s) Hsz).
    destruct (Z.leb_spec 0 (numeric_limits_max size_t_digits (requested_type s)));
      [reflexivity | lia].
Qed.

Lemma accumulator_wraps_around_witness :
  0 <= 32 /\
  createValue (chars "0x10000000000000005") = Constant 5 /\
  exists cs V,
    std_literal cs = Some V /\ 2 ^ 64 <= V /\
    operator 32 _z cs = Constant {| type_of := size_t; value_of := V mod 2 ^ 64 |}.
Proof.
  assert (H : 0 <= 32) by lia.
  refine (conj H (conj _ _)).
  - exact (proj1 (accumulator_wraps_around 32 H)
             (chars "0x10000000000000005") (2 ^ 64 + 5) eq_refl).
  - exact (proj2 (accumulator_wraps_around 32 H) _z).
Defined.

(** C6: for every value [v] and exponent [n], [powerOf(v, n)] terminates: it
    is a total function, its recursion on [n / 2] being well-founded since
    halving a non-zero exponent gives a smaller one.  It is equal to the
    naive power by [n] multiplications, whether these are made in [u64] or
    made in unbounded integers and reduced modulo 2^64 at the end, and
    [powerOf(v, 0) = 1]. *)
Theorem powerOf_refines_naive_power (v n : Z) :
  is_u64 v -> is_u64 n ->
  powerOf v 0 = 1 /\
  (n <> 0 -> 0 <= Z.quot n 2 < n) /\
  powerOf v n = naive_power_u64 v (Z.to_nat n) /\
  powerOf v n = wrap64 (naive_power v (Z.to_nat n)).
Proof.
  intros _ [Hn _]. split; [reflexivity|]. split; [|split].
  - now apply half_decreases.
  - rewrite powerOf_pow, naive_power_u64_pow, Z2Nat.id by exact Hn. reflexivity.
  - rewrite powerOf_pow, naive_power_pow, Z2Nat.id by exact Hn. reflexivity.
Qed.

Lemma powerOf_refines_naive_power_witness :
  is_u64 10 /\ is_u64 20 /\
  powerOf 10 0 = 1 /\
  (20 <> 0 -> 0 <= Z.quot 20 2 < 20) /\
  powerOf 10 20 = naive_power_u64 10 (Z.to_nat 20) /\
  powerOf 10 20 = wrap64 (naive_power 10 (Z.to_nat 20)).
Proof.
  assert (H1 : is_u64 10) by (unfold is_u64, modulus; lia).
  assert (H2 : is_u64 20) by (unfold is_u64, modulus; lia).
  exact (conj H1 (conj H2 (powerOf_refines_naive_power 10 20 H1 H2))).
Defined.

(** C7: on the digit alphabet, [digitToValue] maps ['0'] through ['9'] to 0
    through 9, and ['a'] through ['f'] and ['A'] through ['F'] to 10 through
    15. *)
Theorem digitToValue_alphabet :
  map digitToValue (chars "0123456789") = [0; 1; 2; 3; 4; 5; 6; 7; 8; 9] /\
  map digitToValue (chars "abcdef") = [10; 11; 12; 13; 14; 15] /\
  map digitToValue (chars "ABCDEF") = [10; 11; 12; 13; 14; 15] /\
  Forall (fun e => digitToValue (fst e) = snd e) digit_alphabet.
Proof.
  split; [vm_compute; reflexivity|].
  split; [vm_compute; reflexivity|].
  split; [vm_compute; reflexivity|].
  unfold digit_alphabet. cbn [chars list_ascii_of_string map combine].
  repeat (apply Forall_cons; [vm_compute; reflexivity|]).
  apply Forall_nil.
Qed.

(** C8: the literal 256 with the 8-bit unsigned suffix fails to compile, on
    the [static_assert] of the range check; the literal 100 with the same
    suffix is a constant of value 100 and of type [uint8_t] exactly. *)
Theorem u8_256_rejected_100_accepted (size_t_digits : Z) :
  std_literal (chars "256") = Some 256 /\
  operator size_t_digits _u8 (chars "256") =
    static_assert_failed "uint8 literal out of range." /\
  std_literal (chars "100") = Some 100 /\
  operator size_t_digits _u8 (chars "100") =
    Constant {| type_of := uint8_t; value_of := 100 |}.
Proof. repeat apply conj; vm_compute; reflexivity. Qed.

(** C9, evaluated where it fails: the decimal literal 18446744073709551616
    has the value 2^64, which is not among 0 through [2^(N-1) - 1] for any of
    the signed types, and yet each of the four signed operators compiles it,
    to the constant 0.  The accumulator has wrapped around before the range
    check sees it. *)
Theorem overflowing_literal_compiles_signed (size_t_digits : Z) :
  std_literal (chars "18446744073709551616") = Some (2 ^ 64) /\
  (forall s N, signed_suffix_bits s = Some N -> 2 ^ (N - 1) - 1 < 2 ^ 64) /\
  operator size_t_digits _i8 (chars "18446744073709551616") =
    Constant {| type_of := int8_t; value_of := 0 |} /\
  operator size_t_digits _i16 (chars "18446744073709551616") =
    Constant {| type_of := int16_t; value_of := 0 |} /\
  operator size_t_digits _i32 (chars "18446744073709551616") =
    Constant {| type_of := int32_t; value_of := 0 |} /\
  operator size_t_digits _i64 (chars "18446744073709551616") =
    Constant {| type_of := int64_t; value_of := 0 |}.
Proof.
  split; [vm_compute; reflexivity|].
  split; [intros s N HN; destruct s; inversion HN; subst N; reflexivity|].
  repeat apply conj; vm_compute; reflexivity.
Qed.

(** The range check of the signed types, on the value it is given: for each
    signed suffix, over an [N]-bit type, the [u64] values that
    [checkValid] accepts are exactly 0 through [2^(N-1) - 1].  A literal
    with a value in that range compiles to it, whatever compiles is a
    constant in that range, and a literal whose value is [2^(N-1)] is
    rejected by the [static_assert], although [-2^(N-1)] is the minimum of
    the type. *)
Theorem signed_range_excludes_min_magnitude
    (size_t_digits : Z) (s : Suffix) (N : Z) :
  signed_suffix_bits s = Some N ->
  (forall k, is_u64 k ->
     (exists v, checkValid size_t_digits (requested_type s) k = Constant v)
     <-> 0 <= k <= 2 ^ (N - 1) - 1) /\
  (forall cs V,
     std_literal cs = Some V -> 0 <= V <= 2 ^ (N - 1) - 1 ->
     operator size_t_digits s cs =
     Constant {| type_of := requested_type s; value_of := V |}) /\
  (forall cs c,
     operator size_t_digits s cs = Constant c ->
     type_of c = requested_type s /\ 0 <= value_of c <= 2 ^ (N - 1) - 1) /\
  (forall cs,
     std_literal cs = Some (2 ^ (N - 1)) ->
     operator size_t_digits s cs =
     static_assert_failed (errorMessage (requested_type s))) /\
  numeric_limits_min size_t_digits (requested_type s) = - 2 ^ (N - 1).
Proof.
  intros HN.
  assert (Hmax : numeric_limits_max size_t_digits (requested_type s)
                 = 2 ^ (N - 1) - 1 /\ 2 ^ (N - 1) < modulus).
  { destruct s; inversion HN; subst N; split; reflexivity. }
  destruct Hmax as [Hmax Hlt].
  repeat apply conj.
  - intros k [Hk _].
    unfold checkValid, SCW_DEFINE_CHECK_VALID_FUNC. rewrite Hmax.
    destruct (Z.leb_spec k (2 ^ (N - 1) - 1)); split.
    + lia.
    + intros _. eexists. reflexivity.
    + intros [v Hv]. discriminate.
    + lia.
  - intros cs V HV HVr.
    rewrite (operator_std_literal size_t_digits s cs V HV), Hmax.
    rewrite wrap64_small by (unfold is_u64; lia).
    destruct (Z.leb_spec V (2 ^ (N - 1) - 1)); [reflexivity | lia].
  - intros cs c Hc.
    destruct (createValue cs) as [k | message |] eqn:Hk.
    + pose proof (createValue_range cs k Hk) as [Hk0 _].
      rewrite (operator_outcome size_t_digits s cs k Hk), Hmax in Hc.
      destruct (Z.leb_spec k (2 ^ (N - 1) - 1)); [|discriminate].
      injection Hc as <-. cbn [type_of value_of]. split; [reflexivity | lia].
    + now apply createValue_no_static_assert in Hk.
    + rewrite operator_requested in Hc.
      unfold SCW_DEFINE_INTEGER_OPERATOR in Hc. rewrite Hk in Hc. discriminate.
  - intros cs HV.
    rewrite (operator_std_literal size_t_digits s cs _ HV), Hmax.
    assert (0 < 2 ^ (N - 1)) by (destruct s; inversion HN; subst N; reflexivity).
    rewrite wrap64_small by (unfold is_u64; lia).
    destruct (Z.leb_spec (2 ^ (N - 1)) (2 ^ (N - 1) - 1)); [lia | reflexivity].
  - destruct s; inversion HN; subst N; reflexivity.
Qed.

Lemma signed_range_excludes_min_magnitude_witness :
  signed_suffix_bits _i8 = Some 8 /\
  operator 64 _i8 (chars "127") = Constant {| type_of := int8_t; value_of := 127 |} /\
  operator 64 _i8 (chars "128") = static_assert_failed (errorMessage int8_t) /\
  numeric_limits_min 64 int8_t = - 128.
Proof.
  assert (H : signed_suffix_bits _i8 = Some 8) by reflexivity.
  destruct (signed_range_excludes_min_magnitude 64 _i8 8 H)
    as (_ & Hin & _ & Hout & Hmin).
  refine (conj H (conj _ (conj _ Hmin))).
  - apply (Hin (chars "127") 127); [reflexivity | vm_compute; split; discriminate].
  - apply (Hout (chars "128")). reflexivity.
Defined.

(** C10: for the [_u64] suffix the error branch of the range check cannot be
    reached.  The condition of the [static_assert] holds for every value of
    the 64-bit accumulator, so [checkValid_uint64_t] accepts it unchanged;
    every literal that parses is accepted, and no character sequence at all
    makes the [_u64] operator fail on its [static_assert]. *)
Theorem u64_range_check_unreachable (size_t_digits : Z) :
  (forall k, is_u64 k ->
     (k <=? numeric_limits_max size_t_digits uint64_t) = true /\
     checkValid size_t_digits uint64_t k = Constant k) /\
  (forall cs k,
     createValue cs = Constant k ->
     operator size_t_digits _u64 cs =
     Constant {| type_of := uint64_t; value_of := k |}) /\
  (forall cs message,
     operator size_t_digits _u64 cs <> static_assert_failed message).
Proof.
  assert (Hcond : forall k, is_u64 k ->
            (k <=? numeric_limits_max size_t_digits uint64_t) = true).
  { intros k [_ Hk]. apply Z.leb_le.
    change (numeric_limits_max size_t_digits uint64_t) with (modulus - 1). lia. }
  repeat apply conj.
  - intros k Hk. split; [now apply Hcond|].
    unfold checkValid, SCW_DEFINE_CHECK_VALID_FUNC. rewrite (Hcond k Hk).
    f_equal. apply Z.mod_small. exact Hk.
  - intros cs k Hk.
    rewrite (operator_outcome size_t_digits _u64 cs k Hk).
    cbn [requested_type]. now rewrite (Hcond k (createValue_range cs k Hk)).
  - intros cs message.
    destruct (createValue cs) as [k | message' |] eqn:Hk.
    + rewrite (operator_outcome size_t_digits _u64 cs k Hk).
      cbn [requested_type]. rewrite (Hcond k (createValue_range cs k Hk)).
      discriminate.
    + now apply createValue_no_static_assert in Hk.
    + cbn [operator]. unfold SCW_DEFINE_INTEGER_OPERATOR. rewrite Hk. discriminate.
Qed.

Lemma u64_range_check_unreachable_witness :
  is_u64 (2 ^ 64 - 1) /\
  checkValid 64 uint64_t (2 ^ 64 - 1) = Constant (2 ^ 64 - 1) /\
  createValue (chars "0xffffffffffffffff") = Constant (2 ^ 64 - 1) /\
  operator 64 _u64 (chars "0xffffffffffffffff") =
  Constant {| type_of := uint64_t; value_of := 2 ^ 64 - 1 |}.
Proof.
  assert (H1 : is_u64 (2 ^ 64 - 1)) by (unfold is_u64, modulus; lia).
  assert (H2 : createValue (chars "0xffffffffffffffff") = Constant (2 ^ 64 - 1))
    by reflexivity.
  destruct (u64_range_check_unreachable 64) as (Hcheck & Hop & _).
  exact (conj H1 (conj (proj2 (Hcheck _ H1)) (conj H2 (Hop _ _ H2)))).
Defined.

(** * Further properties of the code *)

(** ** powerOf *)

(** Exponents add up: when the sum of two exponents is itself a [u64], the
    power by the sum is the [u64] product of the powers; and [sqrOf] is the
    second power. *)
Theorem powerOf_add (v a b : Z) :
  is_u64 a -> is_u64 b -> is_u64 (a + b) ->
  powerOf v (a + b) = wrap64 (powerOf v a * powerOf v b) /\
  sqrOf v = powerOf v 2.
Proof.
  intros [Ha _] [Hb _] _. split.
  - rewrite !powerOf_pow by lia.
    now rewrite wrap64_mul_l, wrap64_mul_r, Z.pow_add_r.
  - rewrite powerOf_pow by lia. unfold sqrOf. now rewrite Z.pow_2_r.
Qed.

Lemma powerOf_add_witness :
  is_u64 7 /\ is_u64 13 /\ is_u64 (7 + 13) /\
  powerOf 10 (7 + 13) = wrap64 (powerOf 10 7 * powerOf 10 13) /\
  sqrOf 10 = powerOf 10 2.
Proof.
  assert (H1 : is_u64 7) by (unfold is_u64, modulus; lia).
  assert (H2 : is_u64 13) by (unfold is_u64, modulus; lia).
  assert (H3 : is_u64 (7 + 13)) by (unfold is_u64, modulus; lia).
  exact (conj H1 (conj H2 (conj H3 (powerOf_add 10 7 13 H1 H2 H3)))).
Defined.

(** Exponents multiply: when the product of two exponents is itself a
    [u64], a power of a power is the power by the product, also when the
    inner power has wrapped around. *)
Theorem powerOf_mul (v a b : Z) :
  is_u64 a -> is_u64 b -> is_u64 (a * b) ->
  powerOf (powerOf v a) b = powerOf v (a * b).
Proof.
  intros [Ha _] [Hb _] _.
  rewrite !powerOf_pow by nia.
  unfold wrap64. now rewrite Z.mod_pow_l, Z.pow_mul_r.
Qed.

Lemma powerOf_mul_witness :
  is_u64 41 /\ is_u64 5 /\ is_u64 (41 * 5) /\
  powerOf 3 41 <> 3 ^ 41 /\
  powerOf (powerOf 3 41) 5 <> 0 /\
  powerOf (powerOf 3 41) 5 = powerOf 3 (41 * 5).
Proof.
  assert (H1 : is_u64 41) by (unfold is_u64, modulus; lia).
  assert (H2 : is_u64 5) by (unfold is_u64, modulus; lia).
  assert (H3 : is_u64 (41 * 5)) by (unfold is_u64, modulus; lia).
  assert (H4 : powerOf 3 41 <> 3 ^ 41) by (vm_compute; discriminate).
  assert (H5 : powerOf (powerOf 3 41) 5 <> 0) by (vm_compute; discriminate).
  exact (conj H1 (conj H2 (conj H3 (conj H4 (conj H5 (powerOf_mul 3 41 5 H1 H2 H3)))))).
Defined.

Lemma pow_multiple_of_modulus (v k n : Z) :
  0 <= k -> 0 <= n -> (2 ^ k | v) -> 64 <= k * n -> wrap64 (v ^ n) = 0.
Proof.
  intros Hk Hn [w ->] Hkn.
  rewrite Z.pow_mul_l, <- Z.pow_mul_r by lia.
  replace (k * n) with ((k * n - 64) + 64) by lia.
  rewrite Z.pow_add_r by lia.
  rewrite Z.mul_assoc. apply Z.mod_mul. discriminate.
Qed.

(** The power vanishes once it holds 64 factors 2: for a value divisible by
    [2^k], every exponent [n] with [k * n >= 64] gives 0. *)
Theorem powerOf_vanishes (v k n : Z) :
  is_u64 n -> 0 <= k -> (2 ^ k | v) -> 64 <= k * n -> powerOf v n = 0.
Proof.
  intros [Hn _] Hk Hdiv Hkn.
  rewrite powerOf_pow by exact Hn.
  now apply (pow_multiple_of_modulus v k n).
Qed.

Lemma powerOf_vanishes_witness :
  is_u64 16 /\ 0 <= 4 /\ (2 ^ 4 | 16) /\ 64 <= 4 * 16 /\ powerOf 16 16 = 0.
Proof.
  assert (H1 : is_u64 16) by (unfold is_u64, modulus; lia).
  assert (H2 : 0 <= 4) by lia.
  assert (H3 : (2 ^ 4 | 16)) by (exists 1; reflexivity).
  assert (H4 : 64 <= 4 * 16) by lia.
  exact (conj H1 (conj H2 (conj H3 (conj H4 (powerOf_vanishes 16 4 16 H1 H2 H3 H4))))).
Defined.

(** ** digitToValue outside the alphabet *)

(** No character is refused.  One below ['0'] (the digit separator, the
    decimal point, a sign) falls into the last branch, where
    [kDigit - 'A' + 10] is negative: the conversion to [u64] makes it a value
    just under 2^64. *)
Theorem digitToValue_below_zero (c : char) :
  -128 <= c < ch "0" ->
  digitToValue c = modulus - (ch "A" - 10 - c) /\
  modulus - 183 <= digitToValue c.
Proof.
  unfold digitToValue. char_codes. intros H.
  replace ((c >=? 48) && (c <=? 57)) with false by lia.
  replace ((c >=? 97) && (c <=? 102)) with false by lia.
  assert (Hw : wrap64 (c - 65 + 10) = modulus - (65 - 10 - c)).
  { unfold wrap64. symmetry. apply (Z.mod_unique _ _ (-1)); unfold modulus; lia. }
  rewrite Hw. unfold modulus. lia.
Qed.

Lemma digitToValue_below_zero_witness :
  -128 <= ch "." < ch "0" /\
  digitToValue (ch ".") = modulus - (ch "A" - 10 - ch ".") /\
  modulus - 183 <= digitToValue (ch ".").
Proof.
  assert (H : -128 <= ch "." < ch "0")
    by (vm_compute; split; [discriminate | reflexivity]).
  exact (conj H (digitToValue_below_zero (ch ".") H)).
Defined.

(** ** ParseIntegerValue *)

Lemma positional_sum_app (r : Z) (ds1 ds2 : list char) :
  positional_sum r (ds1 ++ ds2) =
  positional_sum r ds1 * r ^ Z.of_nat (length ds2) + positional_sum r ds2.
Proof.
  induction ds1 as [|c ds1 IH].
  - rewrite positional_sum_nil. reflexivity.
  - cbn [app]. rewrite !positional_sum_cons, IH, length_app, Nat2Z.inj_add.
    rewrite Z.pow_add_r by lia. ring.
Qed.

Lemma parse_constant_nonempty (r : Z) (ds : list char) (v : Z) :
  ParseIntegerValue_parse r ds = Constant v ->
  ds <> [] /\ v = wrap64 (positional_sum r ds).
Proof.
  destruct ds as [|c ds]; [discriminate|].
  rewrite parse_positional by discriminate.
  intros [= <-]. split; [discriminate | reflexivity].
Qed.

(** Packs compose: the value of two packs put one after the other is the
    value of the first, shifted by as many places as the second has digits,
    plus the value of the second, in [u64]. *)
Theorem parse_app (r : Z) (ds1 ds2 : list char) (v1 v2 : Z) :
  parse (ParseIntegerValue r ds1) = Constant v1 ->
  parse (ParseIntegerValue r ds2) = Constant v2 ->
  parse (ParseIntegerValue r (ds1 ++ ds2)) =
  Constant (wrap64 (wrap64 (v1 * powerOf r (Z.of_nat (length ds2))) + v2)).
Proof.
  cbn [parse]. intros H1 H2.
  apply parse_constant_nonempty in H1 as [Hne1 ->].
  apply parse_constant_nonempty in H2 as [Hne2 ->].
  rewrite parse_positional by (destruct ds1; [contradiction | discriminate]).
  rewrite positional_sum_app, powerOf_pow by lia.
  now rewrite wrap64_mul_r, wrap64_mul_l, wrap64_add_l, wrap64_add_r.
Qed.

Lemma parse_app_witness :
  parse (ParseIntegerValue 16 (chars "fe")) = Constant 254 /\
  parse (ParseIntegerValue 16 (chars "F1")) = Constant 241 /\
  parse (ParseIntegerValue 16 (chars "fe" ++ chars "F1")) =
  Constant (wrap64 (wrap64 (254 * powerOf 16 (Z.of_nat (length (chars "F1")))) + 241)).
Proof.
  assert (H1 : parse (ParseIntegerValue 16 (chars "fe")) = Constant 254)
    by (vm_compute; reflexivity).
  assert (H2 : parse (ParseIntegerValue 16 (chars "F1")) = Constant 241)
    by (vm_compute; reflexivity).
  exact (conj H1 (conj H2 (parse_app 16 (chars "fe") (chars "F1") 254 241 H1 H2))).
Defined.

(** Leading zeros do not count: any number of ['0'] characters in front of a
    non-empty pack leaves its value unchanged. *)
Theorem parse_leading_zeros (r : Z) (n : nat) (ds : list char) :
  ds <> [] ->
  parse (ParseIntegerValue r (repeat (ch "0") n ++ ds)) =
  parse (ParseIntegerValue r ds).
Proof.
  intros Hne. cbn [parse].
  rewrite (parse_positional r ds Hne).
  rewrite parse_positional by (destruct n; [exact Hne | discriminate]).
  rewrite positional_sum_app.
  assert (Hz : positional_sum r (repeat (ch "0") n) = 0).
  { induction n as [|n IH]; [reflexivity|].
    cbn [repeat]. rewrite positional_sum_cons, IH. reflexivity. }
  rewrite Hz. reflexivity.
Qed.

Lemma parse_leading_zeros_witness :
  chars "17" <> [] /\
  parse (ParseIntegerValue 8 (repeat (ch "0") 3 ++ chars "17")) =
  parse (ParseIntegerValue 8 (chars "17")).
Proof.
  assert (H : chars "17" <> []) by discriminate.
  exact (conj H (parse_leading_zeros 8 3 (chars "17") H)).
Defined.

(** High digits are dropped: when the power of the radix at the length of a
    pack is 0 in [u64], whatever stands in front of the pack has no effect.
    So only the last 64 binary, 22 octal or 16 hexadecimal digits count. *)
Theorem parse_high_digits_dropped (r : Z) (pre ds : list char) :
  ds <> [] ->
  powerOf r (Z.of_nat (length ds)) = 0 ->
  parse (ParseIntegerValue r (pre ++ ds)) = parse (ParseIntegerValue r ds).
Proof.
  intros Hne Hpow. cbn [parse].
  rewrite (parse_positional r ds Hne).
  rewrite parse_positional by (destruct pre; [exact Hne | discriminate]).
  rewrite positional_sum_app. rewrite powerOf_pow in Hpow by lia.
  rewrite <- wrap64_add_l, <- wrap64_mul_r, Hpow, Z.mul_0_r.
  reflexivity.
Qed.

Lemma parse_high_digits_dropped_witness :
  chars "00000000000000ff" <> [] /\
  powerOf 16 (Z.of_nat (length (chars "00000000000000ff"))) = 0 /\
  parse (ParseIntegerValue 16 (chars "abc" ++ chars "00000000000000ff")) =
  parse (ParseIntegerValue 16 (chars "00000000000000ff")).
Proof.
  assert (H1 : chars "00000000000000ff" <> []) by discriminate.
  assert (H2 : powerOf 16 (Z.of_nat (length (chars "00000000000000ff"))) = 0)
    by (vm_compute; reflexivity).
  exact (conj H1 (conj H2
           (parse_high_digits_dropped 16 (chars "abc") (chars "00000000000000ff") H1 H2))).
Defined.

Lemma positional_sum_bound (r : Z) (ds : list char) :
  Forall (fun d => digitToValue d < r) ds ->
  0 <= positional_sum r ds /\
  (ds <> [] -> positional_sum r ds < r ^ Z.of_nat (length ds)).
Proof.
  induction 1 as [|c ds Hc Hds IH].
  - split; [rewrite positional_sum_nil; lia | contradiction].
  - destruct IH as [IH0 IH1].
    pose proof (digitToValue_range c) as [Hc0 _].
    assert (Hpow : 0 < r ^ Z.of_nat (length ds)) by (apply Z.pow_pos_nonneg; lia).
    rewrite positional_sum_cons. split; [nia|]. intros _.
    cbn [length]. rewrite Nat2Z.inj_succ, Z.pow_succ_r by lia.
    destruct ds as [|c' ds'].
    + rewrite positional_sum_nil. cbn [length Z.of_nat] in *.
      rewrite Z.pow_0_r. lia.
    + specialize (IH1 ltac:(discriminate)). nia.
Qed.

(** No wrap-around on short packs: when every digit is below the radix and
    the radix to the number of digits does not exceed 2^64, the value is the
    positional sum itself, and it is below that power. *)
Theorem parse_exact (r : Z) (ds : list char) :
  ds <> [] ->
  Forall (fun d => digitToValue d < r) ds ->
  r ^ Z.of_nat (length ds) <= modulus ->
  parse (ParseIntegerValue r ds) = Constant (positional_sum r ds) /\
  0 <= positional_sum r ds < r ^ Z.of_nat (length ds).
Proof.
  intros Hne Hall Hfit.
  destruct (positional_sum_bound r ds Hall) as [H0 H1].
  specialize (H1 Hne). split; [|lia].
  cbn [parse]. rewrite parse_positional by exact Hne.
  rewrite wrap64_small by (unfold is_u64; lia). reflexivity.
Qed.

Lemma parse_exact_witness :
  chars "ffffffffffffffff" <> [] /\
  Forall (fun d => digitToValue d < 16) (chars "ffffffffffffffff") /\
  16 ^ Z.of_nat (length (chars "ffffffffffffffff")) <= modulus /\
  parse (ParseIntegerValue 16 (chars "ffffffffffffffff")) =
    Constant (positional_sum 16 (chars "ffffffffffffffff")) /\
  0 <= positional_sum 16 (chars "ffffffffffffffff")
    < 16 ^ Z.of_nat (length (chars "ffffffffffffffff")).
Proof.
  assert (H1 : chars "ffffffffffffffff" <> []) by discriminate.
  assert (H2 : Forall (fun d => digitToValue d < 16) (chars "ffffffffffffffff"))
    by (repeat (apply Forall_cons; [vm_compute; reflexivity|]); apply Forall_nil).
  assert (H3 : 16 ^ Z.of_nat (length (chars "ffffffffffffffff")) <= modulus)
    by (vm_compute; discriminate).
  exact (conj H1 (conj H2 (conj H3 (parse_exact 16 (chars "ffffffffffffffff") H1 H2 H3)))).
Defined.

(** ** createValue *)

Lemma parse_incomplete_iff (r : Z) (ds : list char) :
  ParseIntegerValue_parse r ds = incomplete_type <-> ds = [].
Proof.
  destruct ds as [|c ds].
  - split; reflexivity.
  - rewrite parse_positional by discriminate. split; discriminate.
Qed.

(** [createValue] fails on the empty pack and on a bare prefix [0b], [0B],
    [0x] or [0X], where no digit is left and the undefined primary template
    is named; on every other character sequence it yields a [u64]
    constant. *)
Theorem createValue_incomplete_iff (cs : list char) :
  (createValue cs = incomplete_type <->
   cs = [] \/ cs = chars "0b" \/ cs = chars "0B" \/
   cs = chars "0x" \/ cs = chars "0X") /\
  (createValue cs = incomplete_type \/
   exists k, createValue cs = Constant k /\ is_u64 k).
Proof.
  split.
  - destruct cs as [|c0 [|c1 rest]].
    + split; [intros _; left; reflexivity | reflexivity].
    + unfold createValue. rewrite conditional_type_short by (cbn; lia).
      cbn [parse ParseIntegerValue_parse chars list_ascii_of_string map].
      split; [discriminate | intros H; intuition discriminate].
    + unfold createValue. rewrite conditional_type_long by (cbn; lia).
      rewrite <- ParseBaseUnknown_prefix. unfold ParseBaseUnknown.
      cbn [chars list_ascii_of_string map]. char_codes.
      destruct (Z.eqb_spec c0 48) as [-> | H0];
        [destruct (Z.eqb_spec c1 98) as [-> | Hb];
         [|destruct (Z.eqb_spec c1 66) as [-> | HB];
           [|destruct (Z.eqb_spec c1 120) as [-> | Hx];
             [|destruct (Z.eqb_spec c1 88) as [-> | HX]]]]|];
        cbn [orb parse]; rewrite parse_incomplete_iff;
        (split; [intros H; try discriminate H; subst rest; tauto
                | intros H; intuition congruence]).
  - destruct (createValue cs) as [k | message |] eqn:Hk.
    + right. exists k. split; [reflexivity | now apply createValue_range in Hk].
    + now apply createValue_no_static_assert in Hk.
    + left. reflexivity.
Qed.

(** A one-character pack is always read as that one digit.  The guard
    [sizeof...(kDigits) > 1] is what makes the literal [0] compile: its
    [ParseBaseUnknown] specialization has no digit left to parse. *)
Theorem createValue_single_character (c : char) :
  createValue [c] = Constant (digitToValue c) /\
  parse (ParseBaseUnknown (chars "0")) = incomplete_type /\
  (c <> ch "0" -> parse (ParseBaseUnknown [c]) = createValue [c]).
Proof.
  split; [reflexivity|]. split; [reflexivity|].
  intros Hc. unfold ParseBaseUnknown.
  destruct (Z.eqb_spec c (ch "0")); [contradiction | reflexivity].
Qed.

(** ** The literal operators *)

Lemma operator_cases (size_t_digits : Z) (s : Suffix) (cs : list char) :
  operator size_t_digits s cs =
  match createValue cs with
  | Constant k =>
      if k <=? numeric_limits_max size_t_digits (requested_type s)
      then Constant {| type_of := requested_type s; value_of := k |}
      else static_assert_failed (errorMessage (requested_type s))
  | static_assert_failed message => static_assert_failed message
  | incomplete_type => incomplete_type
  end.
Proof.
  destruct (createValue cs) as [k | message |] eqn:Hk.
  - now apply operator_outcome.
  - now apply createValue_no_static_assert in Hk.
  - rewrite operator_requested. unfold SCW_DEFINE_INTEGER_OPERATOR.
    now rewrite Hk.
Qed.

(** The two ways an operator can fail.  It names an incomplete type exactly
    when [createValue] does, whatever the suffix; and the only diagnostic it
    can give is the message of its own type, given exactly when the parsed
    value is above the maximum of that type. *)
Theorem operator_failures (size_t_digits : Z) (s : Suffix) (cs : list char) :
  (operator size_t_digits s cs = incomplete_type <->
   createValue cs = incomplete_type) /\
  (forall message,
     operator size_t_digits s cs = static_assert_failed message <->
     message = errorMessage (requested_type s) /\
     exists k, createValue cs = Constant k /\
               numeric_limits_max size_t_digits (requested_type s) < k).
Proof.
  rewrite operator_cases.
  destruct (createValue cs) as [k | message' |] eqn:Hk.
  - destruct (Z.leb_spec k (numeric_limits_max size_t_digits (requested_type s)))
      as [Hle | Hgt].
    + split; [split; discriminate|]. intros message. split; [discriminate|].
      intros [_ (k' & [= <-] & Hk')]. lia.
    + split; [split; discriminate|]. intros message. split.
      * intros [= <-]. split; [reflexivity|]. now exists k.
      * intros [-> _]. reflexivity.
  - now apply createValue_no_static_assert in Hk.
  - split; [split; reflexivity|]. intros message. split; [discriminate|].
    intros [_ (k' & Hk' & _)]. discriminate.
Qed.

(** Whatever an operator compiles to has the type of its suffix and the
    value [createValue] parsed, unchanged by the cast, between 0 and the
    maximum of the type. *)
Theorem operator_constant_in_range
    (size_t_digits : Z) (s : Suffix) (cs : list char) (c : Typed) :
  operator size_t_digits s cs = Constant c ->
  type_of c = requested_type s /\
  createValue cs = Constant (value_of c) /\
  0 <= value_of c <= numeric_limits_max size_t_digits (requested_type s).
Proof.
  rewrite operator_cases.
  destruct (createValue cs) as [k | message |] eqn:Hk; try discriminate.
  pose proof (createValue_range cs k Hk) as [Hk0 _].
  destruct (Z.leb_spec k (numeric_limits_max size_t_digits (requested_type s)));
    [|discriminate].
  intros [= <-]. cbn [type_of value_of]. repeat apply conj; try reflexivity; lia.
Qed.

Lemma operator_constant_in_range_witness :
  operator 32 _z (chars "0xfeF1") = Constant {| type_of := size_t; value_of := 65265 |} /\
  size_t = requested_type _z /\
  createValue (chars "0xfeF1") = Constant 65265 /\
  0 <= 65265 <= numeric_limits_max 32 (requested_type _z).
Proof.
  assert (H : operator 32 _z (chars "0xfeF1")
              = Constant {| type_of := size_t; value_of := 65265 |})
    by (vm_compute; reflexivity).
  exact (conj H (operator_constant_in_range 32 _z (chars "0xfeF1") _ H)).
Defined.

(** Widening keeps the value: a literal that compiles with one suffix
    compiles, to the same value, with every suffix whose type has a maximum
    at least as large. *)
Theorem operator_widening
    (size_t_digits : Z) (s1 s2 : Suffix) (cs : list char) (c : Typed) :
  numeric_limits_max size_t_digits (requested_type s1)
    <= numeric_limits_max size_t_digits (requested_type s2) ->
  operator size_t_digits s1 cs = Constant c ->
  operator size_t_digits s2 cs =
  Constant {| type_of := requested_type s2; value_of := value_of c |}.
Proof.
  intros Hmax. rewrite !operator_cases.
  destruct (createValue cs) as [k | message |]; try discriminate.
  destruct (Z.leb_spec k (numeric_limits_max size_t_digits (requested_type s1)));
    [|discriminate].
  intros [= <-]. cbn [value_of].
  destruct (Z.leb_spec k (numeric_limits_max size_t_digits (requested_type s2)));
    [reflexivity | lia].
Qed.

Lemma operator_widening_witness :
  numeric_limits_max 64 (requested_type _i8)
    <= numeric_limits_max 64 (requested_type _u32) /\
  operator 64 _i8 (chars "0177") = Constant {| type_of := int8_t; value_of := 127 |} /\
  operator 64 _u32 (chars "0177") = Constant {| type_of := uint32_t; value_of := 127 |}.
Proof.
  assert (H1 : numeric_limits_max 64 (requested_type _i8)
               <= numeric_limits_max 64 (requested_type _u32))
    by (vm_compute; discriminate).
  assert (H2 : operator 64 _i8 (chars "0177")
               = Constant {| type_of := int8_t; value_of := 127 |})
    by (vm_compute; reflexivity).
  exact (conj H1 (conj H2 (operator_widening 64 _i8 _u32 (chars "0177") _ H1 H2))).
Defined.
